(** * PagerDutyService: a shallow embedding and its contract

    Source: apps/passport-server/src/services/pagerDutyService.ts

    The service is an adapter: it turns "open an incident" and "resolve an
    incident" into one HTTP request each, and turns the answer (or the
    failure) into a plain result.  The code is effectful: it logs, annotates
    a trace span, draws a random token, talks to the network and uses
    exceptions.  The embedding keeps those effects explicit: a computation
    is a function from a state to an outcome (a value or a thrown error)
    and a new state, and every observable effect is an event appended to
    the world's chronological event list. *)

From Stdlib Require Import ZArith String List.
From stdpp Require Import gmap strings pretty.
Import ListNotations.

Local Open Scope string_scope.
Local Open Scope Z_scope.
Set Warnings "-register-all".

(** ** JavaScript values

    The response of the provider is typed [any] in the source, so it is
    modelled as an arbitrary JSON-like value.  An object is a list of
    bindings in which the first binding of a name is the effective one. *)

Inductive JsVal : Type :=
| JUndefined
| JNull
| JBool (b : bool)
| JNum (n : Z)
| JStr (s : string)
| JArr (items : list JsVal)
| JObj (fields : list (string * JsVal)).

(** What can be thrown: [new Error(message)], the TypeError of a property
    read on [undefined] or [null], and whatever the transport rejects
    with. *)
Inductive JsError : Type :=
| NewError (message : string)
| TypeError (base : JsVal) (prop : string)
| Rejected (reason : JsVal).

Inductive Outcome (A : Type) : Type :=
| Return (a : A)
| Throw (e : JsError).
Arguments Return {A} a.
Arguments Throw {A} e.

(** ** Observable effects *)

Definition Span : Type := string.

Inductive LogArg : Type :=
| LogStr (s : string)
| LogErr (e : JsError).

Inductive HttpMethod : Type := POST | PUT.

Module pdjs.
(** The client object returned by [api({ token })]. *)
Record Client : Type := { token : string }.
Definition api (token : string) : Client := {| token := token |}.

(** [res.status] and [res.data] of the library's APIResponse. *)
Record APIResponse : Type := { status : Z; data : JsVal }.
End pdjs.

Record HttpCall : Type := {
  call_client : pdjs.Client;
  call_method : HttpMethod;
  call_url : string;
  call_request : JsVal
}.

Inductive Event : Type :=
| SpanStarted (span : Span)
| Logged (args : list LogArg)
| SpanAttributes (span : Span) (obj : JsVal)
| SpanError (span : Span) (e : JsError)
| HttpIssued (call : HttpCall).

(** The world: everything that happened so far, oldest first, and the
    number of tokens drawn from the random generator. *)
Record World : Type := {
  events : list Event;
  uuid_calls : nat
}.

Definition record_event (e : Event) (w : World) : World :=
  {| events := events w ++ [e]; uuid_calls := uuid_calls w |}.

(** The world after some more events. *)
Definition extend (w : World) (evs : list Event) : World :=
  {| events := events w ++ evs; uuid_calls := uuid_calls w |}.

(** The HTTP calls of a history, oldest first. *)
Definition http_calls (evs : list Event) : list HttpCall :=
  flat_map (fun e => match e with HttpIssued c => [c] | _ => [] end) evs.

(** ** A state-and-exception monad *)

Definition M (S A : Type) : Type := S -> Outcome A * S.

Definition ret {S A : Type} (a : A) : M S A :=
  fun s => (Return a, s).

Definition bind {S A B : Type} (m : M S A) (k : A -> M S B) : M S B :=
  fun s =>
    match m s with
    | (Return a, s') => k a s'
    | (Throw e, s') => (Throw e, s')
    end.

Definition throw {S A : Type} (e : JsError) : M S A :=
  fun s => (Throw e, s).

(** An expression that has no effect but may throw. *)
Definition eval {S A : Type} (o : Outcome A) : M S A :=
  fun s => (o, s).

(** [try { body } catch (e) { handler }]: the handler starts from the state
    the body had reached when it threw. *)
Definition try_catch {S A : Type} (body : M S A) (handler : JsError -> M S A)
  : M S A :=
  fun s =>
    match body s with
    | (Return a, s') => (Return a, s')
    | (Throw e, s') => handler e s'
    end.

Declare Scope js_scope.
Delimit Scope js_scope with js.
Notation "x <- m ;; k" := (bind m (fun x => k))
  (at level 100, m at next level, right associativity) : js_scope.
Notation "m ;; k" := (bind m (fun _ => k))
  (at level 100, right associativity) : js_scope.

(** Mutable local variables of a function body: a frame of locals next to
    the world.  Assignments made in a [try] block are visible in its
    [catch] block. *)
Definition lift {L A : Type} (m : M World A) : M (L * World) A :=
  fun fr =>
    match m (snd fr) with
    | (r, w') => (r, (fst fr, w'))
    end.

Definition read_local {L A : Type} (proj : L -> A) : M (L * World) A :=
  fun fr => (Return (proj (fst fr)), fr).

Definition assign_local {L : Type} (upd : L -> L) : M (L * World) unit :=
  fun fr => (Return tt, (upd (fst fr), snd fr)).

Definition with_locals {L A : Type} (l : L) (m : M (L * World) A) : M World A :=
  fun w =>
    match m (l, w) with
    | (r, fr) => (r, snd fr)
    end.

(** [lhs ?? rhs]: the right operand is evaluated only when the left one is
    absent. *)
Definition nullish {S A : Type} (lhs : option A) (rhs : M S A) : M S A :=
  match lhs with
  | Some a => ret a
  | None => rhs
  end.

(** A value of type [string | undefined] inside a template literal. *)
Definition template (v : option string) : string :=
  match v with
  | Some s => s
  | None => "undefined"
  end.

(** [obj.prop]: throws on [undefined] and [null]; an object answers with
    the bound value or [undefined].  The other values have no own property
    of the names read in this file ([incident], [id], [incident_key]). *)
Fixpoint lookup_field (fields : list (string * JsVal)) (prop : string) : JsVal :=
  match fields with
  | [] => JUndefined
  | (name, v) :: rest => if String.eqb name prop then v else lookup_field rest prop
  end.

Definition get_prop (v : JsVal) (prop : string) : Outcome JsVal :=
  match v with
  | JUndefined | JNull => Throw (TypeError v prop)
  | JObj fields => Return (lookup_field fields prop)
  | _ => Return JUndefined
  end.

(** Reading a request back: [field v name] is [v.name] for an object [v],
    and [at_path] follows a path of names. *)
Definition field (v : JsVal) (name : string) : JsVal :=
  match v with
  | JObj fields => lookup_field fields name
  | _ => JUndefined
  end.

Definition at_path (v : JsVal) (path : list string) : JsVal :=
  fold_left field path v.

(** The deduplication keys of the requests of a history, oldest first. *)
Definition sent_keys (evs : list Event) : list JsVal :=
  map (fun c => at_path (call_request c) ["data"; "incident"; "incident_key"])
    (http_calls evs).

(** The headers of the requests of a history, oldest first. *)
Definition sent_headers (evs : list Event) : list JsVal :=
  map (fun c => at_path (call_request c) ["headers"]) (http_calls evs).

(** Whether [text] contains [name]. *)
Definition mentions (text name : string) : bool :=
  match String.index 0 name text with
  | Some _ => true
  | None => false
  end.

(** ** What the service is given

    The network, the random generator of the uuid package and the
    serialiser [str] of @pcd/util are outside this file; the service is
    stated over any of them.  [transport] answers a request, given all that
    happened before it, with a response or with a rejection; [uuid_token n]
    is the token that the n-th call of [uuid()] returns. *)
Class Platform : Type := {
  transport : World -> HttpCall -> Outcome pdjs.APIResponse;
  uuid_token : nat -> string;
  str : JsVal -> string
}.

(** Modelled from the spec: the declaration of IncidentPolicy (package
    @pcd/passport-interface) is not among the sources.  The spec's data
    model names three values, and the table below, of type
    [Record<IncidentPolicy, string>], is keyed by exactly these members. *)
Inductive IncidentPolicy : Type :=
| Everyone
| JustIvan
| JustRichard.

Definition IncidentPolicy_eqb (a b : IncidentPolicy) : bool :=
  match a, b with
  | Everyone, Everyone => true
  | JustIvan, JustIvan => true
  | JustRichard, JustRichard => true
  | _, _ => false
  end.

Definition IncidentPolicy_values : list IncidentPolicy :=
  [Everyone; JustIvan; JustRichard].

Definition SERVICE_NAME : string := "PagerDutyService".
Definition LOG_TAG : string := "[" ++ SERVICE_NAME ++ "]".

Definition ESCALATION_POLICIES : list (IncidentPolicy * string) :=
  [ (Everyone, "P6SUJ1N");
    (JustIvan, "P3PE907");
    (JustRichard, "P88YCS9") ].

(** [table[name]]: the bound string, or [undefined]. *)
Fixpoint index_policy (table : list (IncidentPolicy * string))
  (name : IncidentPolicy) : JsVal :=
  match table with
  | [] => JUndefined
  | (k, v) :: rest =>
      if IncidentPolicy_eqb k name then JStr v else index_policy rest name
  end.

Definition getPolicyId (name : IncidentPolicy) : JsVal :=
  index_policy ESCALATION_POLICIES name.

Module IncidentHandle.
(** The result of [triggerIncident]: [{ id, key }]. *)
Record t : Type := { id : JsVal; key : JsVal }.
End IncidentHandle.

Record PagerDutyService : Type := {
  api : pdjs.Client;
  serviceId : string
}.

Definition new_PagerDutyService (token serviceId : string) : PagerDutyService :=
  {| api := pdjs.api token; serviceId := serviceId |}.

(** The parameters of [triggerIncident] that its body reassigns. *)
Record TriggerLocals : Type := {
  var_message : option string;
  var_incidentKey : option string
}.

Definition set_message (v : string) (l : TriggerLocals) : TriggerLocals :=
  {| var_message := Some v; var_incidentKey := var_incidentKey l |}.

Definition set_incidentKey (v : string) (l : TriggerLocals) : TriggerLocals :=
  {| var_message := var_message l; var_incidentKey := Some v |}.

(** [process.env]: a variable is a string or is not defined. *)
Definition Env : Type := gmap string string.

(** [!process.env.NAME]: true when the variable is undefined or is the
    empty string. *)
Definition falsy (v : option string) : bool :=
  match v with
  | None => true
  | Some s => String.eqb s ""
  end.

(** A [string | undefined] that the checks before have narrowed to
    [string]. *)
Definition narrowed (v : option string) : string :=
  match v with
  | Some s => s
  | None => ""
  end.

Section Service.
Context {platform : Platform}.
Local Open Scope js_scope.

(** Modelled from the spec: [logger] (../util/logger) is a line-oriented
    sink; it records its arguments and returns. *)
Definition logger (args : list LogArg) : M World unit :=
  fun w => (Return tt, record_event (Logged args) w).

(** Modelled from the spec: [traced], [traceFlattenedObject] and
    [setError] (./telemetryService) are a span-recording sink.  [traced]
    opens the span named service.method and runs the callback with it;
    the callback's result, or what it throws, is the result of
    [traced]. *)
Definition traced {A : Type} (service method : string)
  (func : Span -> M World A) : M World A :=
  let span := service ++ "." ++ method in
  fun w => func span (record_event (SpanStarted span) w).

Definition traceFlattenedObject (span : Span) (obj : JsVal) : M World unit :=
  fun w => (Return tt, record_event (SpanAttributes span obj) w).

Definition setError (e : JsError) (span : Span) : M World unit :=
  fun w => (Return tt, record_event (SpanError span e) w).

(** [uuid()]: the next token of the generator. *)
Definition uuid : M World string :=
  fun w =>
    (Return (uuid_token (uuid_calls w)),
     {| events := events w; uuid_calls := S (uuid_calls w) |}).

(** [await client.post(url, request)] and [await client.put(url,
    request)]: the call is issued, then the transport's answer is
    returned or thrown. *)
Definition http (method : HttpMethod) (client : pdjs.Client)
  (url : string) (request : JsVal) : M World pdjs.APIResponse :=
  fun w =>
    let call := {| call_client := client; call_method := method;
                   call_url := url; call_request := request |} in
    (transport w call, record_event (HttpIssued call) w).

Definition post := http POST.
Definition put := http PUT.

(** The object literals of the two requests. *)
Definition trigger_request (this : PagerDutyService) (title incidentKey
  message : string) (policyId : JsVal) : JsVal :=
  JObj [
    ("headers", JObj [ ("From", JStr "ivan@0xparc.org") ]);
    ("data", JObj [
      ("incident", JObj [
        ("type", JStr "incident");
        ("title", JStr title);
        ("service", JObj [
          ("id", JStr (serviceId this));
          ("type", JStr "service_reference") ]);
        ("urgency", JStr "high");
        ("incident_key", JStr incidentKey);
        ("body", JObj [
          ("type", JStr "incident_body");
          ("details", JStr message) ]) ]);
      ("escalation_policy", JObj [ ("id", policyId) ]) ]) ].

Definition resolve_request : JsVal :=
  JObj [
    ("headers", JObj [ ("From", JStr "ivan@0xparc.org") ]);
    ("data", JObj [
      ("incident", JObj [
        ("type", JStr "incident_reference");
        ("status", JStr "resolved") ]) ]) ].

Definition triggerIncident (this : PagerDutyService) (title : string)
  (message : option string) (policyName : option IncidentPolicy)
  (incidentKey : option string)
  : M World (option IncidentHandle.t) :=
  traced "PagerDutyService" "triggerIncident" (fun span =>
    with_locals {| var_message := message; var_incidentKey := incidentKey |}
      (try_catch
         (given_key <- read_local var_incidentKey ;;
          incidentKey <- nullish given_key (lift uuid) ;;
          assign_local (set_incidentKey incidentKey) ;;
          given_message <- read_local var_message ;;
          message <- nullish given_message (ret "") ;;
          assign_local (set_message message) ;;
          policy <- nullish policyName (ret Everyone) ;;
          let policyId := getPolicyId policy in
          lift (logger [LogStr LOG_TAG;
                        LogStr ("triggering incident '" ++ title ++ "' ('"
                                ++ incidentKey ++ "')")]) ;;
          let request :=
            trigger_request this title incidentKey message policyId in
          lift (traceFlattenedObject span (JObj [("request", request)])) ;;
          res <- lift (post (api this) "/incidents" request) ;;
          let responseBody := pdjs.data res in
          lift (traceFlattenedObject span
                  (JObj [("responseBody", responseBody)])) ;;
          if negb (pdjs.status res =? 201) then
            throw (NewError ("failed to invoke pagerduty (" ++ title ++ "): "
                             ++ str responseBody))
          else
            incident <- eval (get_prop responseBody "incident") ;;
            id <- eval (get_prop incident "id") ;;
            incident' <- eval (get_prop responseBody "incident") ;;
            key <- eval (get_prop incident' "incident_key") ;;
            ret (Some {| IncidentHandle.id := id; IncidentHandle.key := key |}))
         (fun e =>
            incidentKey <- read_local var_incidentKey ;;
            lift (logger [LogStr LOG_TAG;
                          LogStr ("failed to start incident " ++ title ++ " ('"
                                  ++ template incidentKey ++ "')");
                          LogErr e]) ;;
            lift (setError e span) ;;
            ret None))).

Definition resolveIncident (this : PagerDutyService) (id : string)
  : M World unit :=
  traced "PagerDutyService" "resolveIncident" (fun span =>
    try_catch
      (let url := "/incidents/" ++ id in
       logger [LogStr LOG_TAG;
               LogStr ("resolving incident '" ++ id ++ "' by hitting '"
                       ++ url ++ "'")] ;;
       let request := resolve_request in
       traceFlattenedObject span (JObj [("request", request)]) ;;
       res <- put (api this) url request ;;
       let responseBody := pdjs.data res in
       traceFlattenedObject span (JObj [("responseBody", responseBody)]) ;;
       (if negb (pdjs.status res =? 200) then
          throw (NewError ("failed to resolve pagerduty (" ++ id ++ "): "
                           ++ str responseBody))
        else ret tt) ;;
       logger [LogStr LOG_TAG; LogStr ("resolved incident '" ++ id ++ "'")])
      (fun e =>
         setError e span ;;
         logger [LogStr LOG_TAG; LogStr ("failed to start incident " ++ id);
                 LogErr e])).

Definition startPagerDutyService (process_env : Env)
  : M World (option PagerDutyService) :=
  logger [LogStr "[INIT] attempting to start pager duty"] ;;
  if falsy (process_env !! "PAGER_DUTY_API_KEY") then
    logger [LogStr "[INIT] can't start pager duty - missing environment variable PAGER_DUTY_API_KEY"] ;;
    ret None
  else if falsy (process_env !! "PAGER_DUTY_SERVICE_ID") then
    logger [LogStr "[INIT] can't start pager duty - missing environment variable PAGER_DUTY_API_KEY"] ;;
    ret None
  else
    ret (Some (new_PagerDutyService
                 (narrowed (process_env !! "PAGER_DUTY_API_KEY"))
                 (narrowed (process_env !! "PAGER_DUTY_SERVICE_ID")))).
End Service.

(** ** Observations used to state the contract

    The values that the body of [triggerIncident] computes before it calls
    the provider, and the state of the world at that call. *)
Section Observations.
Context {platform : Platform}.

Definition trigger_span : Span := "PagerDutyService.triggerIncident".
Definition resolve_span : Span := "PagerDutyService.resolveIncident".

Definition resolved_key (incidentKey : option string) (w : World) : string :=
  match incidentKey with
  | Some k => k
  | None => uuid_token (uuid_calls w)
  end.

Definition resolved_message (message : option string) : string :=
  match message with
  | Some m => m
  | None => ""
  end.

Definition resolved_policy (policyName : option IncidentPolicy)
  : IncidentPolicy :=
  match policyName with
  | Some p => p
  | None => Everyone
  end.

Definition trigger_call (this : PagerDutyService) (title : string)
  (message : option string) (policyName : option IncidentPolicy)
  (incidentKey : option string) (w : World) : HttpCall :=
  {| call_client := api this;
     call_method := POST;
     call_url := "/incidents";
     call_request :=
       trigger_request this title (resolved_key incidentKey w)
         (resolved_message message)
         (getPolicyId (resolved_policy policyName)) |}.

(** The world when the POST is issued. *)
Definition trigger_world (this : PagerDutyService) (title : string)
  (message : option string) (policyName : option IncidentPolicy)
  (incidentKey : option string) (w : World) : World :=
  {| events :=
       events w ++
       [ SpanStarted trigger_span;
         Logged [LogStr LOG_TAG;
                 LogStr ("triggering incident '" ++ title ++ "' ('"
                         ++ resolved_key incidentKey w ++ "')")];
         SpanAttributes trigger_span
           (JObj [("request",
                   call_request
                     (trigger_call this title message policyName
                        incidentKey w))]) ];
     uuid_calls :=
       match incidentKey with
       | Some _ => uuid_calls w
       | None => S (uuid_calls w)
       end |}.

(** What [triggerIncident] records when it fails with [e]. *)
Definition trigger_failure (title : string) (key : string) (e : JsError)
  : list Event :=
  [ Logged [LogStr LOG_TAG;
            LogStr ("failed to start incident " ++ title ++ " ('" ++ key
                    ++ "')");
            LogErr e];
    SpanError trigger_span e ].

Definition resolve_call (this : PagerDutyService) (id : string) : HttpCall :=
  {| call_client := api this;
     call_method := PUT;
     call_url := "/incidents/" ++ id;
     call_request := resolve_request |}.

(** The world when the PUT is issued. *)
Definition resolve_world (id : string) (w : World) : World :=
  {| events :=
       events w ++
       [ SpanStarted resolve_span;
         Logged [LogStr LOG_TAG;
                 LogStr ("resolving incident '" ++ id ++ "' by hitting '"
                         ++ "/incidents/" ++ id ++ "'")];
         SpanAttributes resolve_span (JObj [("request", resolve_request)]) ];
     uuid_calls := uuid_calls w |}.

(** What [resolveIncident] records when it fails with [e]. *)
Definition resolve_failure (id : string) (e : JsError) : list Event :=
  [ SpanError resolve_span e;
    Logged [LogStr LOG_TAG; LogStr ("failed to start incident " ++ id);
            LogErr e] ].
End Observations.

(** ** Test doubles *)

(** A platform whose transport gives the same answer to every request, whose
    tokens are numbered and whose serialiser prints a placeholder. *)
Definition fixed_platform (answer : Outcome pdjs.APIResponse) : Platform :=
  {| transport := fun _ _ => answer;
     uuid_token := fun n => "token-" +:+ pretty n;
     str := fun _ => "[body]" |}.

Definition respond (status : Z) (data : JsVal) : Outcome pdjs.APIResponse :=
  Return {| pdjs.status := status; pdjs.data := data |}.

Definition connection_refused : JsError :=
  Rejected (JStr "connect ECONNREFUSED").

Definition incident_INC1 : JsVal :=
  JObj [("incident", JObj [("id", JStr "INC1"); ("incident_key", JStr "abc")])].

Definition service0 : PagerDutyService := new_PagerDutyService "secret" "PSVC001".

Definition world0 : World := {| events := []; uuid_calls := 0 |}.

Definition env_both : Env :=
  <["PAGER_DUTY_API_KEY" := "secret"]>
    (<["PAGER_DUTY_SERVICE_ID" := "PSVC001"]> ∅).

Definition env_only_key : Env := <["PAGER_DUTY_API_KEY" := "secret"]> ∅.

Definition env_only_service : Env := <["PAGER_DUTY_SERVICE_ID" := "PSVC001"]> ∅.

(** Both variables are defined, the API key as the empty string. *)
Definition env_empty_key : Env := <["PAGER_DUTY_API_KEY" := ""]> env_both.

(** ** Callers: sequences of operations

    A caller's use of a service, one operation after the other: each
    operation is awaited, and an exception of one would abort the rest. *)

Inductive Op : Type :=
| Trigger (title : string) (message : option string)
    (policyName : option IncidentPolicy) (incidentKey : option string)
| Resolve (id : string).

(** The method and path an operation is meant for. *)
Definition endpoint (op : Op) : HttpMethod * string :=
  match op with
  | Trigger _ _ _ _ => (POST, "/incidents")
  | Resolve id => (PUT, "/incidents/" ++ id)
  end.

(** A [triggerIncident] that leaves the dedup key to the service. *)
Definition keyless (r : string * option string * option IncidentPolicy) : Op :=
  match r with
  | (title, message, policyName) => Trigger title message policyName None
  end.

(** The errors recorded on spans in a history, oldest first. *)
Definition span_errors (evs : list Event) : list (Span * JsError) :=
  flat_map (fun e => match e with SpanError span err => [(span, err)] | _ => [] end)
    evs.

(** What the requests of a history carry at [path], oldest first. *)
Definition sent_at (path : list string) (evs : list Event) : list JsVal :=
  map (fun c => at_path (call_request c) path) (http_calls evs).

Section Callers.
Context {platform : Platform}.
Local Open Scope js_scope.

Definition perform (this : PagerDutyService) (op : Op) : M World unit :=
  match op with
  | Trigger title message policyName incidentKey =>
      triggerIncident this title message policyName incidentKey ;; ret tt
  | Resolve id => resolveIncident this id
  end.

Fixpoint perform_all (this : PagerDutyService) (ops : list Op) : M World unit :=
  match ops with
  | [] => ret tt
  | op :: rest => perform this op ;; perform_all this rest
  end.
End Callers.


(** A platform whose transport accepts every request: 201 with a fresh
    incident for a POST, 200 for a PUT. *)
Definition accepting_platform : Platform :=
  {| transport := fun _ call =>
       match call_method call with
       | POST => respond 201 incident_INC1
       | PUT => respond 200 JUndefined
       end;
     uuid_token := fun n => "token-" +:+ pretty n;
     str := fun _ => "[body]" |}.

(** ** The contract *)

Section Theory.
Context {platform : Platform}.

Lemma trigger_span_eq :
  "PagerDutyService" ++ "." ++ "triggerIncident" = trigger_span.
Proof. reflexivity. Qed.

Lemma resolve_span_eq :
  "PagerDutyService" ++ "." ++ "resolveIncident" = resolve_span.
Proof. reflexivity. Qed.

(** Runs the monadic plumbing of a method body up to the next answer of
    the outside world, and flattens the history. *)
Ltac run_js :=
  cbv beta iota zeta delta
    [triggerIncident resolveIncident startPagerDutyService
     traced with_locals try_catch bind ret throw eval lift
     read_local assign_local nullish logger traceFlattenedObject setError
     uuid post put http record_event extend fst snd
     set_incidentKey set_message var_incidentKey var_message template
     trigger_world trigger_call trigger_failure resolve_world resolve_call
     resolve_failure resolved_key resolved_message resolved_policy
     call_request negb];
  cbn [events uuid_calls];
  rewrite ?trigger_span_eq, ?resolve_span_eq, <- ?app_assoc;
  cbn [events uuid_calls app].

(** *** Symbolic execution of the two methods *)

Lemma triggerIncident_run this title message policyName incidentKey w :
  triggerIncident this title message policyName incidentKey w =
  let w1 := trigger_world this title message policyName incidentKey w in
  let call := trigger_call this title message policyName incidentKey w in
  let fail := trigger_failure title (resolved_key incidentKey w) in
  match transport w1 call with
  | Throw e => (Return None, extend w1 (HttpIssued call :: fail e))
  | Return res =>
      let seen :=
        SpanAttributes trigger_span (JObj [("responseBody", pdjs.data res)]) in
      if pdjs.status res =? 201 then
        match get_prop (pdjs.data res) "incident" with
        | Throw e =>
            (Return None, extend w1 (HttpIssued call :: seen :: fail e))
        | Return incident =>
            match get_prop incident "id" with
            | Throw e =>
                (Return None, extend w1 (HttpIssued call :: seen :: fail e))
            | Return id =>
                match get_prop incident "incident_key" with
                | Throw e =>
                    (Return None,
                     extend w1 (HttpIssued call :: seen :: fail e))
                | Return key =>
                    (Return (Some {| IncidentHandle.id := id;
                                     IncidentHandle.key := key |}),
                     extend w1 [HttpIssued call; seen])
                end
            end
        end
      else
        let e := NewError ("failed to invoke pagerduty (" ++ title ++ "): "
                           ++ str (pdjs.data res)) in
        (Return None, extend w1 (HttpIssued call :: seen :: fail e))
  end.
Proof.
  destruct incidentKey, message, policyName; run_js.
  all: destruct (transport _ _) as [res|e]; run_js; [|reflexivity].
  all: destruct (pdjs.status res =? 201); run_js; [|reflexivity].
  all: destruct (get_prop (pdjs.data res) "incident") as [inc|e];
    run_js; [|reflexivity].
  all: destruct (get_prop inc "id") as [i'|e]; run_js; [|reflexivity].
  all: destruct (get_prop inc "incident_key") as [k|e]; run_js; reflexivity.
Qed.

Lemma resolveIncident_run this id w :
  resolveIncident this id w =
  let w1 := resolve_world id w in
  let call := resolve_call this id in
  match transport w1 call with
  | Throw e => (Return tt, extend w1 (HttpIssued call :: resolve_failure id e))
  | Return res =>
      let seen :=
        SpanAttributes resolve_span (JObj [("responseBody", pdjs.data res)]) in
      if pdjs.status res =? 200 then
        (Return tt,
         extend w1
           [HttpIssued call; seen;
            Logged [LogStr LOG_TAG;
                    LogStr ("resolved incident '" ++ id ++ "'")]])
      else
        let e := NewError ("failed to resolve pagerduty (" ++ id ++ "): "
                           ++ str (pdjs.data res)) in
        (Return tt,
         extend w1 (HttpIssued call :: seen :: resolve_failure id e))
  end.
Proof.
  run_js.
  destruct (transport _ _) as [res|e]; run_js; [|reflexivity].
  destruct (pdjs.status res =? 200); run_js; reflexivity.
Qed.

Lemma http_calls_app (l1 l2 : list Event) :
  http_calls (l1 ++ l2) = (http_calls l1 ++ http_calls l2)%list.
Proof.
  unfold http_calls; apply flat_map_app.
Qed.

(** Whatever the transport answers, one call is added to the history. *)
Lemma triggerIncident_calls this title message policyName incidentKey w :
  http_calls
    (events (snd (triggerIncident this title message policyName
                    incidentKey w))) =
  (http_calls (events w) ++
   [trigger_call this title message policyName incidentKey w])%list.
Proof.
  rewrite triggerIncident_run; cbv zeta.
  destruct (transport _ _) as [res|e];
    [destruct (pdjs.status res =? 201);
     [destruct (get_prop (pdjs.data res) "incident") as [inc|e];
      [destruct (get_prop inc "id");
       [destruct (get_prop inc "incident_key")|]|]|]|].
  all: cbn [snd extend events trigger_world trigger_failure];
    rewrite !http_calls_app; cbn; rewrite app_nil_r; reflexivity.
Qed.

Lemma resolveIncident_calls this id w :
  http_calls (events (snd (resolveIncident this id w))) =
  (http_calls (events w) ++ [resolve_call this id])%list.
Proof.
  rewrite resolveIncident_run; cbv zeta.
  destruct (transport _ _) as [res|e];
    [destruct (pdjs.status res =? 200)|].
  all: cbn [snd extend events resolve_world resolve_failure];
    rewrite !http_calls_app; cbn; rewrite app_nil_r; reflexivity.
Qed.
(** *** triggerIncident *)

(** C1. For every input and every behaviour of the transport,
    [triggerIncident] returns to its caller and never throws.  When the
    POST is answered with a status other than 201, or when the transport
    throws, it returns [undefined] (here [None]), after it has logged the
    failure with the title and the dedup key and has recorded the error
    on the span that [traced] opened. *)
Theorem triggerIncident_never_throws
  this title message policyName incidentKey w :
  let run := triggerIncident this title message policyName incidentKey w in
  let w1 := trigger_world this title message policyName incidentKey w in
  let call := trigger_call this title message policyName incidentKey w in
  let key := resolved_key incidentKey w in
  (exists result, fst run = Return result) /\
  (forall res,
      transport w1 call = Return res ->
      pdjs.status res <> 201 ->
      let e := NewError ("failed to invoke pagerduty (" ++ title ++ "): "
                         ++ str (pdjs.data res)) in
      run =
      (Return None,
       extend w1
         [ HttpIssued call;
           SpanAttributes trigger_span
             (JObj [("responseBody", pdjs.data res)]);
           Logged [LogStr LOG_TAG;
                   LogStr ("failed to start incident " ++ title ++ " ('"
                           ++ key ++ "')");
                   LogErr e];
           SpanError trigger_span e ])) /\
  (forall e,
      transport w1 call = Throw e ->
      run =
      (Return None,
       extend w1
         [ HttpIssued call;
           Logged [LogStr LOG_TAG;
                   LogStr ("failed to start incident " ++ title ++ " ('"
                           ++ key ++ "')");
                   LogErr e];
           SpanError trigger_span e ])).
Proof.
  cbv zeta; rewrite triggerIncident_run; cbv zeta.
  split; [|split].
  - destruct (transport _ _) as [res|e]; [|eauto].
    destruct (pdjs.status res =? 201); [|eauto].
    destruct (get_prop (pdjs.data res) "incident") as [inc|e]; [|eauto].
    destruct (get_prop inc "id"); [|eauto].
    destruct (get_prop inc "incident_key"); eauto.
  - intros res Hres Hstatus; rewrite Hres.
    apply Z.eqb_neq in Hstatus; rewrite Hstatus; reflexivity.
  - intros e He; rewrite He; reflexivity.
Qed.

(** C2. When the POST is answered with status 201, [triggerIncident]
    returns the handle whose [id] is the [incident.id] of the response
    body and whose [key] is its [incident.incident_key]. *)
Theorem triggerIncident_returns_handle
  this title message policyName incidentKey w res incident id key :
  transport (trigger_world this title message policyName incidentKey w)
    (trigger_call this title message policyName incidentKey w) = Return res ->
  pdjs.status res = 201 ->
  get_prop (pdjs.data res) "incident" = Return incident ->
  get_prop incident "id" = Return id ->
  get_prop incident "incident_key" = Return key ->
  fst (triggerIncident this title message policyName incidentKey w) =
  Return (Some {| IncidentHandle.id := id; IncidentHandle.key := key |}).
Proof.
  intros Hres Hstatus Hincident Hid Hkey.
  rewrite triggerIncident_run; cbv zeta.
  rewrite Hres, Hstatus, Z.eqb_refl, Hincident, Hid, Hkey; reflexivity.
Qed.

(** C10. When the POST is answered with status 201 but [incident.id]
    cannot be read from the response body, because the body, or its
    [incident], is [undefined] or [null], the TypeError of the read is
    handled as a transport error is: it is logged, recorded on the span,
    and [triggerIncident] returns [undefined]. *)
Theorem triggerIncident_unreadable_body
  this title message policyName incidentKey w res e :
  let w1 := trigger_world this title message policyName incidentKey w in
  let call := trigger_call this title message policyName incidentKey w in
  transport w1 call = Return res ->
  pdjs.status res = 201 ->
  (get_prop (pdjs.data res) "incident" = Throw e \/
   exists incident,
     get_prop (pdjs.data res) "incident" = Return incident /\
     get_prop incident "id" = Throw e) ->
  triggerIncident this title message policyName incidentKey w =
  (Return None,
   extend w1
     [ HttpIssued call;
       SpanAttributes trigger_span (JObj [("responseBody", pdjs.data res)]);
       Logged [LogStr LOG_TAG;
               LogStr ("failed to start incident " ++ title ++ " ('"
                       ++ resolved_key incidentKey w ++ "')");
               LogErr e];
       SpanError trigger_span e ]).
Proof.
  cbv zeta; intros Hres Hstatus Hread.
  rewrite triggerIncident_run; cbv zeta.
  rewrite Hres, Hstatus, Z.eqb_refl.
  destruct Hread as [Hbody | (incident & Hbody & Hid)].
  - rewrite Hbody; reflexivity.
  - rewrite Hbody, Hid; reflexivity.
Qed.

(** C7. Every invocation of [triggerIncident] issues exactly one HTTP
    call: a POST to /incidents whose headers carry the fixed [From]
    address and whose data is the incident (type, title, reference to
    the configured service, urgency "high", dedup key, body with the
    message) and the resolved escalation policy. *)
Theorem triggerIncident_issues_one_post
  this title message policyName incidentKey w :
  http_calls
    (events (snd (triggerIncident this title message policyName
                    incidentKey w))) =
  (http_calls (events w) ++
   [ {| call_client := api this;
        call_method := POST;
        call_url := "/incidents";
        call_request :=
          JObj [
            ("headers", JObj [ ("From", JStr "ivan@0xparc.org") ]);
            ("data", JObj [
              ("incident", JObj [
                ("type", JStr "incident");
                ("title", JStr title);
                ("service", JObj [
                  ("id", JStr (serviceId this));
                  ("type", JStr "service_reference") ]);
                ("urgency", JStr "high");
                ("incident_key", JStr (resolved_key incidentKey w));
                ("body", JObj [
                  ("type", JStr "incident_body");
                  ("details", JStr (resolved_message message)) ]) ]);
              ("escalation_policy", JObj [
                ("id", getPolicyId (resolved_policy policyName)) ]) ]) ]
     |} ])%list.
Proof.
  apply triggerIncident_calls.
Qed.
Lemma triggerIncident_uuid_calls this title message policyName w :
  uuid_calls (snd (triggerIncident this title message policyName None w)) =
  S (uuid_calls w).
Proof.
  rewrite triggerIncident_run; cbv zeta.
  destruct (transport _ _) as [res|e];
    [destruct (pdjs.status res =? 201);
     [destruct (get_prop (pdjs.data res) "incident") as [inc|e];
      [destruct (get_prop inc "id");
       [destruct (get_prop inc "incident_key")|]|]|]|].
  all: reflexivity.
Qed.

Lemma triggerIncident_sent_keys this title message policyName incidentKey w :
  sent_keys
    (events (snd (triggerIncident this title message policyName
                    incidentKey w))) =
  (sent_keys (events w) ++ [JStr (resolved_key incidentKey w)])%list.
Proof.
  unfold sent_keys; rewrite triggerIncident_calls, map_app; reflexivity.
Qed.

Lemma triggerIncident_sent_at (path : list string)
  this title message policyName incidentKey w :
  sent_at path
    (events (snd (triggerIncident this title message policyName
                    incidentKey w))) =
  (sent_at path (events w) ++
   [at_path
      (call_request (trigger_call this title message policyName incidentKey w))
      path])%list.
Proof.
  unfold sent_at; rewrite triggerIncident_calls, map_app; reflexivity.
Qed.



(** *** resolveIncident *)

(** C3. For every id and every behaviour of the transport,
    [resolveIncident] returns normally.  On status 200 it logs the
    confirmation; on any other status, and when the transport throws, it
    records the error on the span and logs the failure. *)
Theorem resolveIncident_never_throws this id w :
  let run := resolveIncident this id w in
  let w1 := resolve_world id w in
  let call := resolve_call this id in
  fst run = Return tt /\
  (forall res,
      transport w1 call = Return res ->
      pdjs.status res = 200 ->
      run =
      (Return tt,
       extend w1
         [ HttpIssued call;
           SpanAttributes resolve_span
             (JObj [("responseBody", pdjs.data res)]);
           Logged [LogStr LOG_TAG;
                   LogStr ("resolved incident '" ++ id ++ "'")] ])) /\
  (forall res,
      transport w1 call = Return res ->
      pdjs.status res <> 200 ->
      let e := NewError ("failed to resolve pagerduty (" ++ id ++ "): "
                         ++ str (pdjs.data res)) in
      run =
      (Return tt,
       extend w1
         [ HttpIssued call;
           SpanAttributes resolve_span
             (JObj [("responseBody", pdjs.data res)]);
           SpanError resolve_span e;
           Logged [LogStr LOG_TAG;
                   LogStr ("failed to start incident " ++ id);
                   LogErr e] ])) /\
  (forall e,
      transport w1 call = Throw e ->
      run =
      (Return tt,
       extend w1
         [ HttpIssued call;
           SpanError resolve_span e;
           Logged [LogStr LOG_TAG;
                   LogStr ("failed to start incident " ++ id);
                   LogErr e] ])).
Proof.
  cbv zeta; rewrite resolveIncident_run; cbv zeta.
  split; [|split; [|split]].
  - destruct (transport _ _) as [res|e]; [|reflexivity].
    destruct (pdjs.status res =? 200); reflexivity.
  - intros res Hres Hstatus.
    rewrite Hres, Hstatus, Z.eqb_refl; reflexivity.
  - intros res Hres Hstatus; rewrite Hres.
    apply Z.eqb_neq in Hstatus; rewrite Hstatus; reflexivity.
  - intros e He; rewrite He; reflexivity.
Qed.

(** C8. Every invocation of [resolveIncident] issues exactly one HTTP
    call: a PUT to /incidents/{id} whose data marks the incident, by
    reference, as resolved.  Its headers are those of the POST of
    [triggerIncident]: the fixed [From] address. *)
Theorem resolveIncident_issues_one_put this id w :
  http_calls (events (snd (resolveIncident this id w))) =
  (http_calls (events w) ++
   [ {| call_client := api this;
        call_method := PUT;
        call_url := "/incidents/" ++ id;
        call_request :=
          JObj [
            ("headers", JObj [ ("From", JStr "ivan@0xparc.org") ]);
            ("data", JObj [
              ("incident", JObj [
                ("type", JStr "incident_reference");
                ("status", JStr "resolved") ]) ]) ]
     |} ])%list /\
  (forall title message policyName incidentKey,
      let opened :=
        triggerIncident this title message policyName incidentKey w in
      sent_headers
        (events (snd (resolveIncident this id (snd opened)))) =
      (sent_headers (events w) ++
       [ JObj [ ("From", JStr "ivan@0xparc.org") ];
         JObj [ ("From", JStr "ivan@0xparc.org") ] ])%list).
Proof.
  split; [apply resolveIncident_calls|].
  intros title message policyName incidentKey; cbv zeta.
  unfold sent_headers.
  rewrite resolveIncident_calls, triggerIncident_calls, !map_app.
  rewrite <- app_assoc; reflexivity.
Qed.
(** *** startPagerDutyService *)

Lemma falsy_false (v : option string) :
  falsy v = false <-> exists s, v = Some s /\ s <> "".
Proof.
  destruct v as [s|]; cbn; split.
  - intros Hs; exists s; split; [reflexivity|].
    apply String.eqb_neq; exact Hs.
  - intros (s' & Hs' & Hne); injection Hs' as ->.
    apply String.eqb_neq; exact Hne.
  - discriminate.
  - intros (s' & Hs' & _); discriminate.
Qed.

Lemma startPagerDutyService_run (process_env : Env) w :
  startPagerDutyService process_env w =
  let attempt := Logged [LogStr "[INIT] attempting to start pager duty"] in
  let missing :=
    Logged [LogStr "[INIT] can't start pager duty - missing environment variable PAGER_DUTY_API_KEY"] in
  if falsy (process_env !! "PAGER_DUTY_API_KEY") then
    (Return None, extend w [attempt; missing])
  else if falsy (process_env !! "PAGER_DUTY_SERVICE_ID") then
    (Return None, extend w [attempt; missing])
  else
    (Return
       (Some (new_PagerDutyService
                (narrowed (process_env !! "PAGER_DUTY_API_KEY"))
                (narrowed (process_env !! "PAGER_DUTY_SERVICE_ID")))),
     extend w [attempt]).
Proof.
  run_js.
  destruct (falsy (process_env !! "PAGER_DUTY_API_KEY")); run_js;
    [reflexivity|].
  destruct (falsy (process_env !! "PAGER_DUTY_SERVICE_ID")); run_js;
    reflexivity.
Qed.

(** C4. [startPagerDutyService] returns a constructed service exactly
    when PAGER_DUTY_API_KEY and PAGER_DUTY_SERVICE_ID are both present,
    and the service is built from their values.  When either is absent
    it logs a diagnostic, returns [null] (here [None]) and issues no HTTP
    call.  A variable is absent, as the test [!process.env.NAME] of the
    code has it, when it is undefined or empty. *)
Theorem startPagerDutyService_starts_iff_configured (process_env : Env) w :
  let run := startPagerDutyService process_env w in
  let api_key := process_env !! "PAGER_DUTY_API_KEY" in
  let service_id := process_env !! "PAGER_DUTY_SERVICE_ID" in
  (forall service,
      fst run = Return (Some service) <->
      exists token id,
        api_key = Some token /\ token <> "" /\
        service_id = Some id /\ id <> "" /\
        service = new_PagerDutyService token id) /\
  (falsy api_key = true \/ falsy service_id = true ->
   fst run = Return None /\
   (exists text,
       snd run =
       extend w [ Logged [LogStr "[INIT] attempting to start pager duty"];
                  Logged [LogStr text] ]) /\
   http_calls (events (snd run)) = http_calls (events w)).
Proof.
  cbv zeta; rewrite startPagerDutyService_run; cbv zeta.
  destruct (falsy (process_env !! "PAGER_DUTY_API_KEY")) eqn:Hkey;
    [|destruct (falsy (process_env !! "PAGER_DUTY_SERVICE_ID")) eqn:Hsid].
  - split.
    + intros service; split; [discriminate|].
      intros (token & id & Htoken & Hne & _).
      rewrite Htoken in Hkey; cbn in Hkey.
      apply String.eqb_eq in Hkey; contradiction.
    + intros _; split; [reflexivity|]; split; [eauto|].
      cbn [snd extend events]; rewrite http_calls_app, app_nil_r; reflexivity.
  - split.
    + intros service; split; [discriminate|].
      intros (token & id & _ & _ & Hid & Hne & _).
      rewrite Hid in Hsid; cbn in Hsid.
      apply String.eqb_eq in Hsid; contradiction.
    + intros _; split; [reflexivity|]; split; [eauto|].
      cbn [snd extend events]; rewrite http_calls_app, app_nil_r; reflexivity.
  - apply falsy_false in Hkey as (token & Htoken & Htoken_ne).
    apply falsy_false in Hsid as (id & Hid & Hid_ne).
    rewrite Htoken, Hid; cbn [fst narrowed falsy].
    split.
    + intros service; split.
      * intros Hservice; injection Hservice as <-.
        exists token, id; auto.
      * intros (token' & id' & Htoken' & _ & Hid' & _ & ->).
        injection Htoken' as <-; injection Hid' as <-; reflexivity.
    + intros [Hcontra | Hcontra]; discriminate.
Qed.

(** C9. When PAGER_DUTY_API_KEY is present and PAGER_DUTY_SERVICE_ID is
    absent, [startPagerDutyService] returns [null] and its diagnostic
    names PAGER_DUTY_API_KEY, not PAGER_DUTY_SERVICE_ID: the run leaves
    the same trace as a run in which PAGER_DUTY_API_KEY is absent. *)
Theorem startPagerDutyService_names_wrong_variable
  (process_env : Env) w token :
  process_env !! "PAGER_DUTY_API_KEY" = Some token ->
  token <> "" ->
  falsy (process_env !! "PAGER_DUTY_SERVICE_ID") = true ->
  let text :=
    "[INIT] can't start pager duty - missing environment variable PAGER_DUTY_API_KEY" in
  startPagerDutyService process_env w =
  (Return None,
   extend w [ Logged [LogStr "[INIT] attempting to start pager duty"];
              Logged [LogStr text] ]) /\
  mentions text "PAGER_DUTY_API_KEY" = true /\
  mentions text "PAGER_DUTY_SERVICE_ID" = false /\
  (forall other_env : Env,
      falsy (other_env !! "PAGER_DUTY_API_KEY") = true ->
      startPagerDutyService other_env w =
      startPagerDutyService process_env w).
Proof.
  intros Htoken Hne Hsid; cbv zeta.
  assert (Hkey : falsy (process_env !! "PAGER_DUTY_API_KEY") = false).
  { apply falsy_false; eauto. }
  split; [|split; [|split]].
  - rewrite startPagerDutyService_run; cbv zeta.
    rewrite Hkey, Hsid; reflexivity.
  - reflexivity.
  - reflexivity.
  - intros other_env Hother.
    rewrite !startPagerDutyService_run; cbv zeta.
    rewrite Hother, Hkey, Hsid; reflexivity.
Qed.

(** *** The escalation policies *)

(** C5, as amended. The enumeration has three values, Everyone, JustIvan
    and JustRichard, not four; for each of the three the lookup returns a
    non-empty provider identifier, and the table has three entries, one
    per value. *)
Theorem getPolicyId_total :
  (forall name : IncidentPolicy,
      exists id, getPolicyId name = JStr id /\ id <> "") /\
  (forall name : IncidentPolicy, In name IncidentPolicy_values) /\
  length ESCALATION_POLICIES = 3%nat /\
  map fst ESCALATION_POLICIES = IncidentPolicy_values.
Proof.
  split; [|split; [|split]].
  - intros []; eexists; (split; [reflexivity | discriminate]).
  - intros []; cbn; auto.
  - reflexivity.
  - reflexivity.
Qed.
End Theory.

(** ** The contract at concrete inputs *)

Lemma numbered_tokens_distinct (answer : Outcome pdjs.APIResponse) (i j : nat) :
  uuid_token (Platform := fixed_platform answer) i =
  uuid_token (Platform := fixed_platform answer) j ->
  i = j.
Proof.
  cbn; intros Heq.
  apply (inj (String.app "token-")) in Heq.
  apply (inj pretty) in Heq; exact Heq.
Qed.

(** The spec's scenario for a refused request: status 400, and a refused
    connection. *)
Lemma triggerIncident_never_throws_witness :
  fst (triggerIncident (platform := fixed_platform (respond 400 JNull))
         service0 "DB down" None None None world0) = Return None /\
  fst (triggerIncident (platform := fixed_platform (Throw connection_refused))
         service0 "DB down" None None None world0) = Return None.
Proof.
  split.
  - destruct (triggerIncident_never_throws
                (platform := fixed_platform (respond 400 JNull))
                service0 "DB down" None None None world0)
      as (_ & Hstatus & _).
    rewrite (Hstatus {| pdjs.status := 400; pdjs.data := JNull |} eq_refl);
      [reflexivity | discriminate].
  - destruct (triggerIncident_never_throws
                (platform := fixed_platform (Throw connection_refused))
                service0 "DB down" None None None world0)
      as (_ & _ & Hthrow).
    rewrite (Hthrow connection_refused eq_refl); reflexivity.
Defined.

(** The spec's scenario: the transport answers 201 with incident INC1 and
    key abc. *)
Lemma triggerIncident_returns_handle_witness :
  fst (triggerIncident (platform := fixed_platform (respond 201 incident_INC1))
         service0 "DB down" None None None world0) =
  Return (Some {| IncidentHandle.id := JStr "INC1";
                  IncidentHandle.key := JStr "abc" |}).
Proof.
  apply (triggerIncident_returns_handle
           (platform := fixed_platform (respond 201 incident_INC1))
           service0 "DB down" None None None world0
           {| pdjs.status := 201; pdjs.data := incident_INC1 |}
           (JObj [("id", JStr "INC1"); ("incident_key", JStr "abc")]));
    reflexivity.
Defined.

(** Status 201 with no body at all. *)
Lemma triggerIncident_unreadable_body_witness :
  fst (triggerIncident (platform := fixed_platform (respond 201 JUndefined))
         service0 "DB down" None None None world0) = Return None.
Proof.
  rewrite (triggerIncident_unreadable_body
             (platform := fixed_platform (respond 201 JUndefined))
             service0 "DB down" None None None world0
             {| pdjs.status := 201; pdjs.data := JUndefined |}
             (TypeError JUndefined "incident") eq_refl eq_refl
             (or_introl eq_refl)).
  reflexivity.
Defined.



(** The spec's scenario: resolving INC1 is answered with status 200. *)
Lemma resolveIncident_never_throws_witness :
  fst (resolveIncident (platform := fixed_platform (respond 200 JUndefined))
         service0 "INC1" world0) = Return tt /\
  fst (resolveIncident (platform := fixed_platform (respond 404 JNull))
         service0 "INC1" world0) = Return tt /\
  fst (resolveIncident (platform := fixed_platform (Throw connection_refused))
         service0 "INC1" world0) = Return tt.
Proof.
  split; [|split].
  - destruct (resolveIncident_never_throws
                (platform := fixed_platform (respond 200 JUndefined))
                service0 "INC1" world0) as (_ & Hok & _ & _).
    rewrite (Hok {| pdjs.status := 200; pdjs.data := JUndefined |}
               eq_refl eq_refl); reflexivity.
  - destruct (resolveIncident_never_throws
                (platform := fixed_platform (respond 404 JNull))
                service0 "INC1" world0) as (_ & _ & Hstatus & _).
    rewrite (Hstatus {| pdjs.status := 404; pdjs.data := JNull |} eq_refl);
      [reflexivity | discriminate].
  - destruct (resolveIncident_never_throws
                (platform := fixed_platform (Throw connection_refused))
                service0 "INC1" world0) as (_ & _ & _ & Hthrow).
    rewrite (Hthrow connection_refused eq_refl); reflexivity.
Defined.

(** Only the API key is configured. *)
Lemma startPagerDutyService_starts_iff_configured_witness :
  fst (startPagerDutyService env_only_key world0) = Return None /\
  http_calls (events (snd (startPagerDutyService env_only_key world0))) = [].
Proof.
  destruct (startPagerDutyService_starts_iff_configured env_only_key world0)
    as (_ & Habsent).
  destruct Habsent as (Hnull & _ & Hcalls); [right; reflexivity|].
  split; [exact Hnull | exact Hcalls].
Defined.

(** A variable that is defined as the empty string counts as absent, and
    with both variables configured the service is built from them. *)
Example startPagerDutyService_empty_key :
  fst (startPagerDutyService env_empty_key world0) = Return None.
Proof. reflexivity. Qed.

Example startPagerDutyService_both :
  fst (startPagerDutyService env_both world0) =
  Return (Some (new_PagerDutyService "secret" "PSVC001")).
Proof. reflexivity. Qed.

Lemma startPagerDutyService_names_wrong_variable_witness :
  startPagerDutyService env_only_key world0 =
  (Return None,
   {| events :=
        [ Logged [LogStr "[INIT] attempting to start pager duty"];
          Logged [LogStr "[INIT] can't start pager duty - missing environment variable PAGER_DUTY_API_KEY"] ];
      uuid_calls := 0 |}).
Proof.
  destruct (startPagerDutyService_names_wrong_variable env_only_key world0
              "secret") as (Hrun & _).
  - reflexivity.
  - discriminate.
  - reflexivity.
  - exact Hrun.
Defined.

(** C5 as stated fails: the enumeration has no four distinct values. *)
Lemma four_policies_do_not_exist :
  ~ exists a b c d : IncidentPolicy,
      a <> b /\ a <> c /\ a <> d /\ b <> c /\ b <> d /\ c <> d /\
      forall name, In name [a; b; c; d] ->
        exists id, getPolicyId name = JStr id /\ id <> "".
Proof.
  intros (a & b & c & d & Hab & Hac & Had & Hbc & Hbd & Hcd & _).
  destruct a, b, c, d; congruence.
Qed.

(** ** Beyond the contract: what the code also guarantees *)

Section More.
Context {platform : Platform}.

Lemma span_errors_app (l1 l2 : list Event) :
  span_errors (l1 ++ l2) = (span_errors l1 ++ span_errors l2)%list.
Proof.
  unfold span_errors; apply flat_map_app.
Qed.

Lemma app_singleton_neq {A : Type} (l : list A) (x : A) : (l ++ [x])%list <> l.
Proof.
  intros Heq; apply (f_equal length) in Heq.
  rewrite length_app in Heq; cbn in Heq; lia.
Qed.

(** The ways a run of [triggerIncident] can end. *)
Lemma triggerIncident_cases this title message policyName incidentKey w :
  let run := triggerIncident this title message policyName incidentKey w in
  let w1 := trigger_world this title message policyName incidentKey w in
  let call := trigger_call this title message policyName incidentKey w in
  (exists res incident,
      transport w1 call = Return res /\ pdjs.status res = 201 /\
      get_prop (pdjs.data res) "incident" = Return incident /\
      incident <> JUndefined /\ incident <> JNull /\
      run =
      (Return (Some {| IncidentHandle.id := field incident "id";
                       IncidentHandle.key := field incident "incident_key" |}),
       extend w1
         [ HttpIssued call;
           SpanAttributes trigger_span
             (JObj [("responseBody", pdjs.data res)]) ])) \/
  (exists e seen,
      run =
      (Return None,
       extend w1
         (HttpIssued call ::
          seen ++ trigger_failure title (resolved_key incidentKey w) e)%list) /\
      span_errors seen = [] /\ http_calls seen = [] /\
      forall res incident,
        transport w1 call = Return res -> pdjs.status res = 201 ->
        get_prop (pdjs.data res) "incident" = Return incident ->
        incident = JUndefined \/ incident = JNull).
Proof.
  cbv zeta; rewrite triggerIncident_run; cbv zeta.
  destruct (transport _ _) as [res|e].
  - destruct (pdjs.status res =? 201) eqn:Hstatus.
    + apply Z.eqb_eq in Hstatus.
      destruct (get_prop (pdjs.data res) "incident") as [inc|e] eqn:Hbody.
      * destruct inc;
          try (left; eexists res, _;
               repeat (split; [first [reflexivity | eassumption | discriminate]|]);
               reflexivity).
        -- right; eexists _, [_]; split; [reflexivity|].
           split; [reflexivity|]; split; [reflexivity|].
           intros res' inc' Hres' _ Hinc'; injection Hres' as <-.
           rewrite Hbody in Hinc'; injection Hinc' as <-; auto.
        -- right; eexists _, [_]; split; [reflexivity|].
           split; [reflexivity|]; split; [reflexivity|].
           intros res' inc' Hres' _ Hinc'; injection Hres' as <-.
           rewrite Hbody in Hinc'; injection Hinc' as <-; auto.
      * right; eexists _, [_]; split; [reflexivity|].
        split; [reflexivity|]; split; [reflexivity|].
        intros res' inc' Hres' _ Hinc'; injection Hres' as <-.
        rewrite Hbody in Hinc'; discriminate.
    + apply Z.eqb_neq in Hstatus.
      right; eexists _, [_]; split; [reflexivity|].
      split; [reflexivity|]; split; [reflexivity|].
      intros res' inc' Hres' Hstatus' _; injection Hres' as <-; contradiction.
  - right; exists e, []; split; [reflexivity|].
    split; [reflexivity|]; split; [reflexivity|].
    intros res' inc' Hres'; discriminate.
Qed.
Lemma span_errors_trigger_world this title message policyName incidentKey w
  (evs : list Event) :
  span_errors
    (events
       (extend (trigger_world this title message policyName incidentKey w)
          evs)) =
  (span_errors (events w) ++ span_errors evs)%list.
Proof.
  cbn [extend events trigger_world]; rewrite !span_errors_app.
  cbn; rewrite app_nil_r; reflexivity.
Qed.

(** X1. A dedup key that the caller supplies, the empty string included,
    is sent as it is, and no token is drawn from the uuid generator. *)
Theorem triggerIncident_keeps_given_key
  this title message policyName (key : string) w :
  let run := triggerIncident this title message policyName (Some key) w in
  sent_keys (events (snd run)) = (sent_keys (events w) ++ [JStr key])%list /\
  uuid_calls (snd run) = uuid_calls w.
Proof.
  cbv zeta; split; [apply triggerIncident_sent_keys|].
  destruct (triggerIncident_cases this title message policyName (Some key) w)
    as [(res & inc & _ & _ & _ & _ & _ & ->) | (e & seen & -> & _)];
    reflexivity.
Qed.

(** X2. [triggerIncident] returns a handle exactly when the POST was
    answered with status 201 and a body whose [incident] is neither
    [undefined] nor [null]; the handle then holds the [id] and the
    [incident_key] of that incident, [undefined] for one that it lacks. *)
Theorem triggerIncident_handle_iff
  this title message policyName incidentKey w handle :
  let w1 := trigger_world this title message policyName incidentKey w in
  let call := trigger_call this title message policyName incidentKey w in
  fst (triggerIncident this title message policyName incidentKey w) =
  Return (Some handle) <->
  exists res incident,
    transport w1 call = Return res /\ pdjs.status res = 201 /\
    get_prop (pdjs.data res) "incident" = Return incident /\
    incident <> JUndefined /\ incident <> JNull /\
    handle = {| IncidentHandle.id := field incident "id";
                IncidentHandle.key := field incident "incident_key" |}.
Proof.
  cbv zeta.
  destruct (triggerIncident_cases this title message policyName incidentKey w)
    as [(res & inc & Hres & Hstatus & Hbody & Hundef & Hnull & Hrun)
       | (e & seen & Hrun & _ & _ & Hbad)];
    rewrite Hrun; cbn [fst]; split.
  - intros Hhandle; injection Hhandle as <-.
    exists res, inc; auto 10.
  - intros (res' & inc' & Hres' & _ & Hbody' & _ & _ & ->).
    rewrite Hres in Hres'; injection Hres' as <-.
    rewrite Hbody in Hbody'; injection Hbody' as <-; reflexivity.
  - discriminate.
  - intros (res & inc & Hres & Hstatus & Hbody & Hundef & Hnull & _).
    destruct (Hbad res inc Hres Hstatus Hbody); contradiction.
Qed.

(** X3. What [triggerIncident] returns is decided by the transport's
    answer alone: two calls that get the same answer return the same
    result, whatever their titles, messages, policies and dedup keys.  The
    key of the handle is the provider's, not the one that was sent. *)
Theorem triggerIncident_result_from_answer
  this title message policyName incidentKey w
  this' title' message' policyName' incidentKey' w' :
  transport (trigger_world this title message policyName incidentKey w)
    (trigger_call this title message policyName incidentKey w) =
  transport (trigger_world this' title' message' policyName' incidentKey' w')
    (trigger_call this' title' message' policyName' incidentKey' w') ->
  fst (triggerIncident this title message policyName incidentKey w) =
  fst (triggerIncident this' title' message' policyName' incidentKey' w').
Proof.
  intros Hsame; rewrite !triggerIncident_run; cbv zeta; rewrite Hsame.
  clear Hsame.
  destruct (transport _ _) as [res|e]; [|reflexivity].
  destruct (pdjs.status res =? 201); [|reflexivity].
  destruct (get_prop (pdjs.data res) "incident") as [inc|e]; [|reflexivity].
  destruct (get_prop inc "id"); [|reflexivity].
  destruct (get_prop inc "incident_key"); reflexivity.
Qed.

(** X4. No failure of [triggerIncident] is silent: it returns [undefined]
    exactly when it has recorded one error on its span, and it returns a
    handle exactly when it has recorded none. *)
Theorem triggerIncident_failure_is_recorded
  this title message policyName incidentKey w :
  let run := triggerIncident this title message policyName incidentKey w in
  (fst run = Return None <->
   exists e,
     span_errors (events (snd run)) =
     (span_errors (events w) ++ [(trigger_span, e)])%list) /\
  ((exists handle, fst run = Return (Some handle)) <->
   span_errors (events (snd run)) = span_errors (events w)).
Proof.
  cbv zeta.
  destruct (triggerIncident_cases this title message policyName incidentKey w)
    as [(res & inc & _ & _ & _ & _ & _ & Hrun)
       | (e & seen & Hrun & Hseen & _ & _)];
    rewrite Hrun; cbn [fst snd]; rewrite span_errors_trigger_world.
  - cbn [span_errors flat_map app]; rewrite app_nil_r.
    split; split.
    + discriminate.
    + intros (e & He); symmetry in He.
      apply app_singleton_neq in He; contradiction.
    + reflexivity.
    + eauto.
  - change (HttpIssued ?c :: ?l)%list with ([HttpIssued c] ++ l)%list.
    rewrite !span_errors_app, Hseen.
    cbn [span_errors flat_map app trigger_failure].
    split; split.
    + eauto.
    + reflexivity.
    + intros (handle & Hhandle); discriminate.
    + intros He; apply app_singleton_neq in He; contradiction.
Qed.

Lemma span_errors_resolve_world id w (evs : list Event) :
  span_errors (events (extend (resolve_world id w) evs)) =
  (span_errors (events w) ++ span_errors evs)%list.
Proof.
  cbn [extend events resolve_world]; rewrite !span_errors_app.
  cbn; rewrite app_nil_r; reflexivity.
Qed.

(** X5. [resolveIncident] returns nothing, so the span is where its
    outcome shows: it records no error exactly when the PUT was answered
    with status 200, and exactly one error otherwise. *)
Theorem resolveIncident_failure_is_recorded this id w :
  let run := resolveIncident this id w in
  let answer := transport (resolve_world id w) (resolve_call this id) in
  (span_errors (events (snd run)) = span_errors (events w) <->
   exists res, answer = Return res /\ pdjs.status res = 200) /\
  ((exists e,
       span_errors (events (snd run)) =
       (span_errors (events w) ++ [(resolve_span, e)])%list) <->
   ~ exists res, answer = Return res /\ pdjs.status res = 200).
Proof.
  cbv zeta; rewrite resolveIncident_run; cbv zeta.
  destruct (transport _ _) as [res|e];
    [destruct (pdjs.status res =? 200) eqn:Hstatus|];
    cbn [snd]; rewrite span_errors_resolve_world;
    cbn [span_errors flat_map app resolve_failure]; rewrite ?app_nil_r.
  - apply Z.eqb_eq in Hstatus; split; split.
    + eauto.
    + reflexivity.
    + intros (e & He); symmetry in He.
      apply app_singleton_neq in He; contradiction.
    + intros Hnot; exfalso; apply Hnot; eauto.
  - apply Z.eqb_neq in Hstatus; split; split.
    + intros He; apply app_singleton_neq in He; contradiction.
    + intros (res' & Hres' & Hok); injection Hres' as <-; contradiction.
    + intros _ (res' & Hres' & Hok); injection Hres' as <-; contradiction.
    + eauto.
  - split; split.
    + intros He; apply app_singleton_neq in He; contradiction.
    + intros (res' & Hres' & _); discriminate.
    + intros _ (res' & Hres' & _); discriminate.
    + eauto.
Qed.
(** X6. The configuration reaches the provider: when both environment
    variables are present, the service that [startPagerDutyService]
    returns sends its requests through the client made from
    PAGER_DUTY_API_KEY, and its incidents refer to the service
    PAGER_DUTY_SERVICE_ID. *)
Theorem configured_service_reaches_provider
  (process_env : Env) token service_id title message policyName incidentKey w :
  process_env !! "PAGER_DUTY_API_KEY" = Some token ->
  token <> "" ->
  process_env !! "PAGER_DUTY_SERVICE_ID" = Some service_id ->
  service_id <> "" ->
  exists service w',
    startPagerDutyService process_env w = (Return (Some service), w') /\
    let run :=
      triggerIncident service title message policyName incidentKey w' in
    map call_client (http_calls (events (snd run))) =
    (map call_client (http_calls (events w)) ++ [pdjs.api token])%list /\
    sent_at ["data"; "incident"; "service"; "id"] (events (snd run)) =
    (sent_at ["data"; "incident"; "service"; "id"] (events w) ++
     [JStr service_id])%list.
Proof.
  intros Htoken Htoken_ne Hid Hid_ne.
  rewrite startPagerDutyService_run; cbv zeta.
  rewrite Htoken, Hid; cbn [falsy narrowed].
  apply String.eqb_neq in Htoken_ne, Hid_ne; rewrite Htoken_ne, Hid_ne.
  eexists _, _; split; [reflexivity|]; cbv zeta; split.
  - rewrite triggerIncident_calls, map_app.
    cbn [extend events]; rewrite http_calls_app; cbn.
    rewrite app_nil_r; reflexivity.
  - rewrite triggerIncident_sent_at.
    unfold sent_at; cbn [extend events]; rewrite http_calls_app; cbn.
    rewrite app_nil_r; reflexivity.
Qed.

(** X7. Distinct policies page distinct escalation policies of the
    provider: [getPolicyId] is injective. *)
Theorem getPolicyId_injective (a b : IncidentPolicy) :
  getPolicyId a = getPolicyId b -> a = b.
Proof.
  destruct a, b; cbn; intros Heq; first [reflexivity | discriminate Heq].
Qed.

(** X8. The escalation policy of a request is never [undefined]: whatever
    policy is given, or none, [triggerIncident] sends the non-empty
    identifier that the table binds to it (to Everyone when none is
    given). *)
Theorem triggerIncident_sends_table_policy
  this title message policyName incidentKey w :
  exists id,
    In (resolved_policy policyName, id) ESCALATION_POLICIES /\
    id <> "" /\
    sent_at ["data"; "escalation_policy"; "id"]
      (events (snd (triggerIncident this title message policyName
                      incidentKey w))) =
    (sent_at ["data"; "escalation_policy"; "id"] (events w) ++
     [JStr id])%list.
Proof.
  rewrite triggerIncident_sent_at.
  destruct policyName as [[| |]|];
    [exists "P6SUJ1N" | exists "P3PE907" | exists "P88YCS9" | exists "P6SUJ1N"];
    (split; [cbn; auto | split; [discriminate | reflexivity]]).
Qed.

(** X9. [startPagerDutyService] contacts nobody, also when it builds the
    service: whatever the environment, all it does is write log lines, one
    when it returns a service and two when it returns [null]. *)
Theorem startPagerDutyService_only_logs (process_env : Env) w :
  let run := startPagerDutyService process_env w in
  exists result lines,
    run = (Return result, extend w (map Logged lines)) /\
    length lines = match result with Some _ => 1%nat | None => 2%nat end /\
    http_calls (events (snd run)) = http_calls (events w) /\
    uuid_calls (snd run) = uuid_calls w.
Proof.
  cbv zeta; rewrite startPagerDutyService_run; cbv zeta.
  destruct (falsy (process_env !! "PAGER_DUTY_API_KEY"));
    [|destruct (falsy (process_env !! "PAGER_DUTY_SERVICE_ID"))].
  all: eexists _, _; split;
    [match goal with
     | |- (_, extend _ [?a; ?b]) = _ =>
         change [a; b] with
           (map Logged
              [[LogStr "[INIT] attempting to start pager duty"];
               [LogStr "[INIT] can't start pager duty - missing environment variable PAGER_DUTY_API_KEY"]])
     | |- (_, extend _ [?a]) = _ =>
         change [a] with
           (map Logged [[LogStr "[INIT] attempting to start pager duty"]])
     end; reflexivity|].
  all: split; [reflexivity|]; split; [|reflexivity].
  all: cbn [snd extend events]; rewrite http_calls_app; cbn;
    rewrite app_nil_r; reflexivity.
Qed.

(** *** Sequences of operations *)

Lemma triggerIncident_total this title message policyName incidentKey w :
  exists result,
    fst (triggerIncident this title message policyName incidentKey w) =
    Return result.
Proof.
  destruct (triggerIncident_cases this title message policyName incidentKey w)
    as [(res & inc & _ & _ & _ & _ & _ & ->) | (e & seen & -> & _)]; eauto.
Qed.

Lemma resolveIncident_total this id w :
  fst (resolveIncident this id w) = Return tt.
Proof.
  rewrite resolveIncident_run; cbv zeta.
  destruct (transport _ _) as [res|e]; [|reflexivity].
  destruct (pdjs.status res =? 200); reflexivity.
Qed.

Lemma perform_trigger this title message policyName incidentKey w :
  perform this (Trigger title message policyName incidentKey) w =
  (Return tt, snd (triggerIncident this title message policyName incidentKey w)).
Proof.
  destruct (triggerIncident_total this title message policyName incidentKey w)
    as (result & Hresult).
  unfold perform, bind, ret.
  destruct (triggerIncident this title message policyName incidentKey w)
    as [outcome w'].
  cbn in Hresult; rewrite Hresult; reflexivity.
Qed.

Lemma perform_resolve this id w :
  perform this (Resolve id) w = (Return tt, snd (resolveIncident this id w)).
Proof.
  pose proof (resolveIncident_total this id w) as Hresult.
  unfold perform.
  destruct (resolveIncident this id w) as [outcome w'].
  cbn in Hresult; rewrite Hresult; reflexivity.
Qed.

Lemma perform_all_cons this op ops w :
  perform_all this (op :: ops) w =
  perform_all this ops (snd (perform this op w)).
Proof.
  cbn [perform_all]; unfold bind at 1.
  destruct op as [title message policyName incidentKey | id].
  - rewrite perform_trigger; reflexivity.
  - rewrite perform_resolve; reflexivity.
Qed.

Lemma perform_calls this op w :
  exists call,
    http_calls (events (snd (perform this op w))) =
    (http_calls (events w) ++ [call])%list /\
    (call_method call, call_url call) = endpoint op /\
    call_client call = api this.
Proof.
  destruct op as [title message policyName incidentKey | id].
  - rewrite perform_trigger; cbn [snd].
    eexists; split; [apply triggerIncident_calls|]; split; reflexivity.
  - rewrite perform_resolve; cbn [snd].
    eexists; split; [apply resolveIncident_calls|]; split; reflexivity.
Qed.

(** X10. A sequence of operations never throws, and it issues exactly one
    request per operation, in the order of the operations, each to the
    endpoint of its operation and through the client of the service: no
    request is retried or left out, whatever the transport answers. *)
Theorem perform_all_one_request_each this ops w :
  let run := perform_all this ops w in
  let target := fun c => (call_client c, call_method c, call_url c) in
  fst run = Return tt /\
  map target (http_calls (events (snd run))) =
  (map target (http_calls (events w)) ++
   map (fun op => (api this, fst (endpoint op), snd (endpoint op))) ops)%list.
Proof.
  cbv zeta; revert w.
  induction ops as [|op ops IH]; intros w.
  - cbn; rewrite app_nil_r; auto.
  - rewrite perform_all_cons.
    destruct (IH (snd (perform this op w))) as (Hreturn & Hcalls).
    split; [exact Hreturn|].
    rewrite Hcalls.
    destruct (perform_calls this op w) as (call & -> & Hendpoint & Hclient).
    rewrite map_app, <- app_assoc; cbn [map app].
    rewrite Hclient, <- Hendpoint; reflexivity.
Qed.

(** X11. Calls of [triggerIncident] that leave the dedup key out send
    consecutive tokens of the uuid generator, one per call, and consume
    them; the keys are pairwise distinct when the generator does not
    repeat a token. *)
Theorem keyless_triggers_send_consecutive_tokens
  this (reqs : list (string * option string * option IncidentPolicy)) w :
  let after := snd (perform_all this (map keyless reqs) w) in
  let tokens := map uuid_token (seq (uuid_calls w) (length reqs)) in
  sent_keys (events after) = (sent_keys (events w) ++ map JStr tokens)%list /\
  uuid_calls after = (uuid_calls w + length reqs)%nat /\
  ((forall i j : nat, uuid_token i = uuid_token j -> i = j) ->
   List.NoDup tokens).
Proof.
  cbv zeta; split; [|split].
  - revert w; induction reqs as [|[[title message] policyName] reqs IH];
      intros w.
    + cbn; rewrite app_nil_r; reflexivity.
    + cbn [map keyless]; rewrite perform_all_cons, perform_trigger; cbn [snd].
      rewrite IH, triggerIncident_sent_keys, triggerIncident_uuid_calls.
      rewrite <- app_assoc; reflexivity.
  - revert w; induction reqs as [|[[title message] policyName] reqs IH];
      intros w.
    + cbn; lia.
    + cbn [map keyless]; rewrite perform_all_cons, perform_trigger; cbn [snd].
      rewrite IH, triggerIncident_uuid_calls; cbn [length]; lia.
  - intros Hinj.
    apply NoDup_ListNoDup.
    change (NoDup (uuid_token <$> seq (uuid_calls w) (length reqs))).
    apply (@NoDup_fmap_2 _ _ uuid_token Hinj), NoDup_seq.
Qed.
End More.

(** ** The further guarantees at concrete inputs *)

Lemma triggerIncident_handle_iff_witness :
  fst (triggerIncident (platform := fixed_platform (respond 201 incident_INC1))
         service0 "DB down" (Some "disk full") (Some JustIvan) (Some "k1")
         world0) =
  Return (Some {| IncidentHandle.id := JStr "INC1";
                  IncidentHandle.key := JStr "abc" |}).
Proof.
  apply (triggerIncident_handle_iff
           (platform := fixed_platform (respond 201 incident_INC1))).
  exists {| pdjs.status := 201; pdjs.data := incident_INC1 |},
    (JObj [("id", JStr "INC1"); ("incident_key", JStr "abc")]).
  repeat split; discriminate.
Defined.

Lemma triggerIncident_result_from_answer_witness :
  fst (triggerIncident (platform := fixed_platform (respond 201 incident_INC1))
         service0 "DB down" None None (Some "k1") world0) =
  fst (triggerIncident (platform := fixed_platform (respond 201 incident_INC1))
         service0 "queue stuck" (Some "retry") (Some JustRichard) None world0).
Proof.
  apply (triggerIncident_result_from_answer
           (platform := fixed_platform (respond 201 incident_INC1))).
  reflexivity.
Defined.

Lemma triggerIncident_failure_is_recorded_witness :
  exists e,
    span_errors
      (events
         (snd (triggerIncident (platform := fixed_platform (respond 400 JNull))
                 service0 "DB down" None None None world0))) =
    [(trigger_span, e)].
Proof.
  apply (proj1 (triggerIncident_failure_is_recorded
                  (platform := fixed_platform (respond 400 JNull))
                  service0 "DB down" None None None world0)).
  reflexivity.
Defined.

Lemma resolveIncident_failure_is_recorded_witness :
  span_errors
    (events
       (snd (resolveIncident (platform := fixed_platform (respond 200 JUndefined))
               service0 "INC1" world0))) = [].
Proof.
  apply (proj1 (resolveIncident_failure_is_recorded
                  (platform := fixed_platform (respond 200 JUndefined))
                  service0 "INC1" world0)).
  exists {| pdjs.status := 200; pdjs.data := JUndefined |}.
  split; reflexivity.
Defined.

Lemma configured_service_reaches_provider_witness :
  exists service w',
    startPagerDutyService env_both world0 = (Return (Some service), w') /\
    let run :=
      triggerIncident (platform := fixed_platform (respond 201 incident_INC1))
        service "DB down" None None None w' in
    map call_client (http_calls (events (snd run))) = [pdjs.api "secret"] /\
    sent_at ["data"; "incident"; "service"; "id"] (events (snd run)) =
    [JStr "PSVC001"].
Proof.
  apply (configured_service_reaches_provider
           (platform := fixed_platform (respond 201 incident_INC1))
           env_both "secret" "PSVC001" "DB down" None None None world0).
  - reflexivity.
  - discriminate.
  - reflexivity.
  - discriminate.
Defined.

Lemma getPolicyId_injective_witness :
  getPolicyId JustIvan = getPolicyId JustIvan /\ JustIvan = JustIvan.
Proof.
  split; [reflexivity|].
  apply (getPolicyId_injective JustIvan JustIvan); reflexivity.
Defined.

Lemma keyless_triggers_send_consecutive_tokens_witness :
  List.NoDup
    (map (uuid_token (Platform := fixed_platform (respond 201 incident_INC1)))
       (seq 0 2)).
Proof.
  apply (keyless_triggers_send_consecutive_tokens
           (platform := fixed_platform (respond 201 incident_INC1))
           service0 [("DB down", None, None); ("queue stuck", None, None)]
           world0).
  apply numbered_tokens_distinct.
Defined.

(** An incident is opened and then resolved, on a provider that accepts
    both requests. *)
Example open_then_resolve :
  map (fun c => (call_method c, call_url c))
    (http_calls
       (events
          (snd (perform_all (platform := accepting_platform) service0
                  [Trigger "DB down" None None None; Resolve "INC1"]
                  world0)))) =
  [(POST, "/incidents"); (PUT, "/incidents/INC1")].
Proof. reflexivity. Qed.
